(** * kicad_better_bom: a grouped CSV bill of materials from a KiCad netlist

    Shallow embedding of [plugins/kicad_better_bom.py] and the properties
    of its component equivalence, exclusion filter, row builder and
    auxiliary-BOM merger.

    Conventions of the embedding.
    - The script is Python 2 code ([from __future__ import print_function],
      and [map] is used as a list: [fieldNames.index]).  [map] therefore
      yields a list, and [str.lower] folds the ASCII letters only.
    - A Python value that may be [None] is an [option]; a call that may
      raise is a computation in the [res] monad.
    - Python sets are [gset string]; a [for] over a set visits
      [elements] of it.
    - The classes of [kicad_netlist_reader] are not part of the plugin:
      a component is the record of the getters the plugin calls. *)

From stdpp Require Import base decidable option list sets gmap strings pretty.
From Stdlib Require Import Ascii ZArith Permutation Lia.


(** ** Exceptions and the error monad *)

Inductive exn : Type :=
  | ValueError
  | IndexError
  | KeyError
  | TypeError
  | IOError
  | SystemExit (code : Z).

Inductive res (A : Type) : Type :=
  | Ok (a : A)
  | Raise (e : exn).

Arguments Ok {A} a.
Arguments Raise {A} e.

#[global] Instance res_ret : MRet res := fun _ a => Ok a.

#[global] Instance res_bind : MBind res := fun _ _ f m =>
  match m with
  | Ok a => f a
  | Raise e => Raise e
  end.

(** ** Python primitives the plugin uses *)

(** [str.lower()] on a byte string. *)
Definition lower_ascii (c : ascii) : ascii :=
  let n := nat_of_ascii c in
  if (65 <=? n)%nat && (n <=? 90)%nat then ascii_of_nat (n + 32) else c.

Fixpoint toLower (str : string) : string :=
  match str with
  | EmptyString => EmptyString
  | String c rest => String (lower_ascii c) (toLower rest)
  end.

(** [l.index(x)]: the first position of [x], [ValueError] when absent. *)
Fixpoint list_index (x : string) (l : list string) : res nat :=
  match l with
  | [] => Raise ValueError
  | y :: l' => if decide (y = x) then Ok 0 else i ← list_index x l'; Ok (S i)
  end.

(** [l[i]] for a non-negative [i]: [IndexError] out of range. *)
Definition list_getitem {A : Type} (l : list A) (i : nat) : res A :=
  match l !! i with
  | Some a => Ok a
  | None => Raise IndexError
  end.

(** ** Components *)

(** The getters of [kicad_netlist_reader.comp] that the plugin calls. *)
Record comp : Type := {
  getFieldNames : list string;
  getField : string -> string;
  getValue : string;
  getPartName : string;
  getFootprint : string;
  getRef : string
}.

Definition desc : string := "description".
Definition mfg1 : string := "mfg1".
Definition mfg1pn : string := "mfg1pn".
Definition mfg2 : string := "mfg2".
Definition mfg2pn : string := "mfg2pn".
Definition hmtFieldNames : list string := [desc; mfg1; mfg1pn; mfg2; mfg2pn].

(** ** Field accessor *)

Definition getCaseInsensitiveField (c : comp) (fieldName : string)
  : res (option string) :=
  let fieldNames := toLower <$> getFieldNames c in
  let fieldName := toLower fieldName in
  if bool_decide (fieldName ∉ fieldNames) then Ok None
  else
    i ← list_index fieldName fieldNames;
    orig ← list_getitem (getFieldNames c) i;
    Ok (Some (getField c orig)).

(** ** Equivalence predicate *)

(** The body of the [for name in allFieldNames] loop. *)
Definition hmt_step (c other : comp) (result : bool) (name : string) : res bool :=
  compField ← getCaseInsensitiveField c name;
  otherField ← getCaseInsensitiveField other name;
  Ok (result && bool_decide (compField = otherField)).

Fixpoint hmt_loop (c other : comp) (names : list string) (result : bool) : res bool :=
  match names with
  | [] => Ok result
  | name :: names' =>
      result' ← hmt_step c other result name;
      hmt_loop c other names' result'
  end.

Definition hmt_names (c : comp) : gset string :=
  list_to_set (toLower <$> getFieldNames c) ∩ list_to_set hmtFieldNames.

Definition equByHMTFields (c other : comp) : res (option bool) :=
  let compFieldNames := hmt_names c in
  let otherFieldNames := hmt_names other in
  let allFieldNames := compFieldNames ∪ otherFieldNames in
  if decide (size allFieldNames = 0) then Ok None
  else
    result ← hmt_loop c other (elements allFieldNames) true;
    Ok (Some result).

Definition myEqu (self other : comp) : res (option bool) :=
  result ← equByHMTFields self other;
  if bool_decide (result ≠ None) then Ok result
  else if bool_decide (getValue self ≠ getValue other) then Ok (Some false)
  else if bool_decide (getPartName self ≠ getPartName other) then Ok (Some false)
  else if bool_decide (getFootprint self ≠ getFootprint other) then Ok (Some false)
  else Ok result.

(** Truth value of a comparison result in an [if]: [None] is false. *)
Definition truthy (v : option bool) : bool :=
  match v with
  | Some b => b
  | None => false
  end.

(** ** Sample components *)

Definition no_fields : string -> string := fun _ => "".

Definition R1 : comp :=
  {| getFieldNames := []; getField := no_fields;
     getValue := "10k"; getPartName := "R"; getFootprint := "0603";
     getRef := "R1" |}.

Definition R2 : comp :=
  {| getFieldNames := []; getField := no_fields;
     getValue := "10k"; getPartName := "R"; getFootprint := "0603";
     getRef := "R2" |}.

#[global] Instance exn_eq_dec : EqDecision exn.
Proof. solve_decision. Defined.

#[global] Instance res_eq_dec {A : Type} `{EqDecision A} : EqDecision (res A).
Proof. solve_decision. Defined.

(** A component carries an HMT field when one of its field names, lower
    cased, is an HMT field name. *)
Definition has_hmt_field (c : comp) : bool :=
  existsb (λ n, bool_decide (toLower n ∈ hmtFieldNames)) (getFieldNames c).

(** The HMT field names present on either side, in the order of
    [hmtFieldNames]. *)
Definition hmt_union (a b : comp) : list string :=
  filter (λ n, n ∈ toLower <$> getFieldNames a ∨ n ∈ toLower <$> getFieldNames b)
         hmtFieldNames.

(** The same component with another value, part name and footprint. *)
Definition with_identity (c : comp) (value part footprint : string) : comp :=
  {| getFieldNames := getFieldNames c; getField := getField c;
     getValue := value; getPartName := part; getFootprint := footprint;
     getRef := getRef c |}.



(** ** Exclusion filter *)

(** The loop that fills [filteredComponents]. *)
Fixpoint filter_loop (components filtered : list comp) : res (list comp) :=
  match components with
  | [] => Ok filtered
  | component :: rest =>
      exclude ← getCaseInsensitiveField component "exclude";
      if bool_decide (exclude = None)
      then filter_loop rest (filtered ++ [component])
      else filter_loop rest filtered
  end.

Definition filteredComponents (components : list comp) : res (list comp) :=
  filter_loop components [].

(** ** Rows *)

(** A cell of a row before [writerow] applies [str] to it. *)
Inductive cell : Type :=
  | CInt (n : Z)
  | CStr (s : string)
  | CNone.

Definition str (col : cell) : string :=
  match col with
  | CInt n => pretty n
  | CStr s => s
  | CNone => "None"
  end.

Definition columns : list string :=
  ["Qty"; "Reference(s)"; "description"; "mfg1"; "mfg1pn"; "mfg2"; "mfg2pn"].

(** The part of [kicad_netlist_reader.netlist] the plugin reads. *)
Record netlist : Type := {
  getInterestingComponents : list comp;
  getGroupField : list comp -> string -> string
}.

(** One turn of [for component in group]: the state is [refs] and [c]
    (the last component seen, which nothing reads afterwards). *)
Definition refs_step (st : string * option comp) (component : comp)
  : string * option comp :=
  let refs := st.1 in
  let refs := if bool_decide (0 < String.length refs) then refs +:+ ", " else refs in
  (refs +:+ getRef component, Some component).

Definition group_refs (group : list comp) : string :=
  (fold_left refs_step group ("", None)).1.

Definition group_row (net : netlist) (group : list comp) : list cell :=
  let refs := group_refs group in
  [CInt (Z.of_nat (length group)); CStr refs]
  ++ ((λ field, CStr (getGroupField net group field)) <$> drop 2 columns).

(** ** Grouping *)

(** Modelled from the spec: [groupComponents] of the netlist object, which
    lives in the [kicad_netlist_reader] module and not in the plugin.  The
    first component not yet in a group opens a group and takes with it
    every later ungrouped component that compares equal to it, in list
    order; the comparison is the overridden [__eq__], used as a truth
    value. *)
Fixpoint split_equal (eq : comp -> comp -> res (option bool))
    (c : comp) (ungrouped : list comp) : res (list comp * list comp) :=
  match ungrouped with
  | [] => Ok ([], [])
  | ci :: rest =>
      r ← eq ci c;
      p ← split_equal eq c rest;
      Ok (if truthy r then (ci :: p.1, p.2) else (p.1, ci :: p.2))
  end.

(** Modelled from the spec: the pass over the components not yet in a
    group, of the same [groupComponents]; [fuel] bounds the number of
    groups and is the length of the list. *)
Fixpoint group_loop (fuel : nat) (eq : comp -> comp -> res (option bool))
    (ungrouped : list comp) : res (list (list comp)) :=
  match fuel, ungrouped with
  | _, [] => Ok []
  | 0, _ :: _ => Ok []
  | S fuel', c :: rest =>
      p ← split_equal eq c rest;
      groups ← group_loop fuel' eq p.2;
      Ok ((c :: p.1) :: groups)
  end.

(** Modelled from the spec: [net.groupComponents(components)]. *)
Definition groupComponents (eq : comp -> comp -> res (option bool))
    (components : list comp) : res (list (list comp)) :=
  group_loop (length components) eq components.

(** ** Effects of the script *)

Inductive stream : Type :=
  | Stdout
  | Stderr
  | File (path : string).

Inductive message : Type :=
  | Usage
  | CantOpenOutput (path : string)
  | AuxFound (path : string)
  | AuxMustContain (cols : list string)
  | NoAuxFound (path : string).

Inductive event : Type :=
  | Print (to : stream) (msg : message)
  | LoadNetlist (path : string)
  | OpenWrite (path : string)
  | OpenRead (path : string)
  | WriteRow (to : stream) (cells : list string)
  | Close (f : stream).

(** A run yields the events it performed, in order, and its outcome. *)
Definition io (A : Type) : Type := list event * res A.

#[global] Instance io_ret : MRet io := λ _ a, ([], Ok a).

#[global] Instance io_bind : MBind io := λ _ _ f m,
  match m.2 with
  | Ok a => let r := f a in (m.1 ++ r.1, r.2)
  | Raise e => (m.1, Raise e)
  end.

Definition emit (e : event) : io unit := ([e], Ok tt).

Definition lift {A : Type} (r : res A) : io A := ([], r).

(** [try: body except IOError: handler] *)
Definition try_IOError {A : Type} (body handler : io A) : io A :=
  match body.2 with
  | Raise IOError => (body.1 ++ handler.1, handler.2)
  | _ => body
  end.

Fixpoint for_each {A : Type} (l : list A) (body : A -> io unit) : io unit :=
  match l with
  | [] => mret tt
  | x :: l' => _ ← body x; for_each l' body
  end.

(** What the script finds outside itself. *)
Record world : Type := {
  (** [kicad_netlist_reader.netlist(path)] *)
  load_netlist : string -> res netlist;
  (** whether [open(path, 'w')] succeeds *)
  open_write : string -> bool;
  (** [open(path, 'r')] read by [csv.reader]: the records of the file,
      [None] when the open raises [IOError] *)
  read_csv : string -> option (list (list string));
  (** [os.path.splitext] *)
  splitext : string -> string * string
}.

Definition writerow (out : stream) (cols : list cell) : io unit :=
  emit (WriteRow out (str <$> cols)).

(** ** Auxiliary BOM *)

(** The dict [csv.DictReader] makes of a record: [dict(zip(fieldnames, row))],
    then [restval] ([None]) under the field names the record is too short
    for.  The surplus of a long record goes under the key [None], which no
    column name reaches. *)
Definition dict_row (fieldnames row : list string) : gmap string (option string) :=
  let d := fold_left (λ d kv, <[kv.1 := Some kv.2]> d) (zip fieldnames row) ∅ in
  fold_left (λ d key, <[key := None]> d) (drop (length row) fieldnames) d.

(** [row[name]] *)
Definition dict_getitem (d : gmap string (option string)) (name : string) : res cell :=
  match d !! name with
  | Some (Some s) => Ok (CStr s)
  | Some None => Ok CNone
  | None => Raise KeyError
  end.

Fixpoint map_res {A B : Type} (f : A -> res B) (l : list A) : res (list B) :=
  match l with
  | [] => Ok []
  | x :: l' => y ← f x; ys ← map_res f l'; Ok (y :: ys)
  end.

(** The records [csv.DictReader] iterates over: it skips the empty ones. *)
Definition data_rows (records : list (list string)) : list (list string) :=
  filter (λ row, row ≠ []) records.

Definition auxBomFileName (w : world) (output : string) : string :=
  (splitext w output).1 +:+ "-aux.csv".

Definition aux_merge (w : world) (out : stream) (output : string) : io unit :=
  let auxBomFileName := auxBomFileName w output in
  try_IOError
    (_ ← emit (OpenRead auxBomFileName);
     match read_csv w auxBomFileName with
     | None => lift (Raise IOError)
     | Some records =>
         _ ← emit (Print Stdout (AuxFound auxBomFileName));
         match records with
         | [] => lift (Raise TypeError)
         | fieldnames :: rest =>
             if negb (bool_decide (columns ⊆ fieldnames))
             then emit (Print Stdout (AuxMustContain columns))
             else
               for_each (data_rows rest) (λ record,
                 let row := dict_row fieldnames record in
                 cells ← lift (map_res (dict_getitem row) columns);
                 writerow out cells)
         end
     end)
    (emit (Print Stdout (NoAuxFound auxBomFileName))).

(** ** The script *)

Definition main (w : world) (argv : list string) : io unit :=
  if bool_decide (length argv ≠ 3) then
    _ ← emit (Print Stderr Usage);
    lift (Raise (SystemExit 1%Z))
  else
    input ← lift (list_getitem argv 1);
    _ ← emit (LoadNetlist input);
    net ← lift (load_netlist w input);
    output ← lift (list_getitem argv 2);
    f ← try_IOError
          (_ ← emit (OpenWrite output);
           if open_write w output then mret (File output)
           else lift (Raise IOError))
          (_ ← emit (Print Stderr (CantOpenOutput output)); mret Stdout);
    let components := getInterestingComponents net in
    components ← lift (filteredComponents components);
    _ ← writerow f (CStr <$> columns);
    grouped ← lift (groupComponents myEqu components);
    _ ← for_each grouped (λ group, writerow f (group_row net group));
    _ ← aux_merge w f output;
    emit (Close f).

(** The exit status of the process for an outcome of [main]. *)
Definition exit_code (r : res unit) : Z :=
  match r with
  | Ok _ => 0%Z
  | Raise (SystemExit code) => code
  | Raise _ => 1%Z
  end.

(** ** Reference definitions for the auxiliary BOM *)

(** The bindings a record gives the header names, in header order: a
    name beyond the end of the record is bound to [None]. *)
Fixpoint header_bindings (fieldnames record : list string)
  : list (string * option string) :=
  match fieldnames with
  | [] => []
  | k :: fieldnames' => (k, head record) :: header_bindings fieldnames' (tail record)
  end.

(** The cell of a record under the last header column called [name]. *)
Fixpoint header_cell (fieldnames record : list string) (name : string)
  : option (option string) :=
  match fieldnames with
  | [] => None
  | k :: fieldnames' =>
      match header_cell fieldnames' (tail record) name with
      | Some v => Some v
      | None => if decide (k = name) then Some (head record) else None
      end
  end.

Definition column_cell (fieldnames record : list string) (name : string) : cell :=
  match header_cell fieldnames record name with
  | Some (Some s) => CStr s
  | _ => CNone
  end.

(** ** Sample inputs *)

(** Two resistors of one manufacturer part, drawn with different symbols. *)
Definition U1 : comp :=
  {| getFieldNames := ["MFG1"; "mfg1pn"];
     getField := λ n, if decide (n = "MFG1") then "Yageo"
                      else if decide (n = "mfg1pn") then "RC0603FR-0710KL"
                      else "";
     getValue := "10k"; getPartName := "R"; getFootprint := "0603";
     getRef := "R3" |}.

Definition U2 : comp :=
  {| getFieldNames := ["mfg1"; "MFG1PN"];
     getField := λ n, if decide (n = "mfg1") then "Yageo"
                      else if decide (n = "MFG1PN") then "RC0603FR-0710KL"
                      else "";
     getValue := "10K 1%"; getPartName := "R_Small"; getFootprint := "R_0603";
     getRef := "R4" |}.

(** A component whose reference designator is the empty string. *)
Definition E0 : comp :=
  {| getFieldNames := []; getField := no_fields;
     getValue := "10k"; getPartName := "R"; getFootprint := "0603";
     getRef := "" |}.

(** A test point carrying an [Exclude] field with an empty value. *)
Definition TP1 : comp :=
  {| getFieldNames := ["Exclude"]; getField := no_fields;
     getValue := "TP"; getPartName := "TestPoint"; getFootprint := "TP_1mm";
     getRef := "TP1" |}.

Definition net0 : netlist :=
  {| getInterestingComponents := [R1; TP1; U1; R2; U2];
     getGroupField := λ _ _, "" |}.

Definition aux_header : list string :=
  ["Note"; "mfg1"; "mfg1pn"; "mfg2"; "mfg2pn"; "Qty"; "Reference(s)"; "description"].

Definition w0 : world :=
  {| load_netlist := λ _, Ok net0;
     open_write := λ _, true;
     read_csv := λ path,
       if decide (path = "bom-aux.csv")
       then Some [aux_header;
                  ["hand"; "Acme"; "S-1"; ""; ""; "4"; "screws"; "M3 screw"];
                  [];
                  ["short"; "Acme"]]
       else None;
     splitext := λ _, ("bom", ".csv") |}.

(** The same place with an auxiliary BOM that lacks the [Qty] column. *)
Definition w1 : world :=
  {| load_netlist := λ _, Ok net0;
     open_write := λ _, true;
     read_csv := λ _, Some [["Reference(s)"; "description"]; ["screws"; "M3"]];
     splitext := λ _, ("bom", ".csv") |}.

(** ** Reference definitions for the script *)

(** The designators of a group without the empty ones it starts with. *)
Fixpoint drop_empty (refs : list string) : list string :=
  match refs with
  | [] => []
  | ref :: refs' => if decide (ref = "") then drop_empty refs' else ref :: refs'
  end.

(** The stream the rows go to: the output file, or standard output when
    the file cannot be opened. *)
Definition out_stream (w : world) (output : string) : stream :=
  if open_write w output then File output else Stdout.

(** An event is a row of [width] cells written to [f], or no row at all. *)
Definition row_to (f : stream) (width : nat) (e : event) : Prop :=
  match e with
  | WriteRow to cells => to = f ∧ length cells = width
  | _ => True
  end.

(** The events that touch the netlist or the output. *)
Definition is_row (e : event) : bool :=
  match e with
  | WriteRow _ _ => true
  | _ => false
  end.

(** ** More sample places *)

(** No auxiliary BOM beside the output. *)
Definition w_noaux : world :=
  {| load_netlist := λ _, Ok net0;
     open_write := λ _, true;
     read_csv := λ _, None;
     splitext := λ _, ("bom", ".csv") |}.

(** An auxiliary BOM of zero bytes, and an output file that cannot be
    opened. *)
Definition w_empty : world :=
  {| load_netlist := λ _, Ok net0;
     open_write := λ _, false;
     read_csv := λ _, Some [];
     splitext := λ _, ("bom", ".csv") |}.

(** A netlist that cannot be read. *)
Definition w_noload : world :=
  {| load_netlist := λ _, Raise IOError;
     open_write := λ _, true;
     read_csv := λ _, None;
     splitext := λ _, ("bom", ".csv") |}.

(** An auxiliary BOM written with the schema of the generated one. *)
Definition w_same : world :=
  {| load_netlist := λ _, Ok net0;
     open_write := λ _, true;
     read_csv := λ _,
       Some [columns;
             ["2"; "J1, J2"; "jumper, 2.54mm"; "Acme"; "J-2"; ""; ""];
             ["1"; "H1"; "heat sink"; ""; ""; ""; ""]];
     splitext := λ _, ("bom", ".csv") |}.
(** ** Properties of the field accessor *)

Section accessor.
Implicit Types (c : comp) (name x : string) (names : list string).

Lemma list_index_find (f : string -> string) x names :
  list_index x (f <$> names) =
  match list_find (λ n, f n = x) names with
  | Some (i, _) => Ok i
  | None => Raise ValueError
  end.
Proof.
  induction names as [|n names IH]; [done|].
  rewrite fmap_cons. cbn [list_index list_find].
  destruct (decide (f n = x)) as [Heq|Hne]; [done|].
  rewrite IH. by destruct (list_find _ names) as [[i o]|].
Qed.

Lemma list_find_lower_None name names :
  list_find (λ n, toLower n = toLower name) names = None ↔
  toLower name ∉ toLower <$> names.
Proof.
  rewrite list_find_None, Forall_forall, list_elem_of_fmap. split.
  - intros H (n & Hn & Hin). by apply (H n).
  - intros H n Hin Heq. apply H. by exists n.
Qed.

Lemma getCaseInsensitiveField_find c name :
  getCaseInsensitiveField c name =
  Ok (match list_find (λ n, toLower n = toLower name) (getFieldNames c) with
      | Some (_, orig) => Some (getField c orig)
      | None => None
      end).
Proof.
  unfold getCaseInsensitiveField.
  destruct (list_find _ (getFieldNames c)) as [[i orig]|] eqn:Hfind.
  - rewrite bool_decide_eq_false_2.
    + rewrite list_index_find, Hfind. simpl.
      apply list_find_Some in Hfind as (Hi & _ & _).
      unfold list_getitem. by rewrite Hi.
    + intros Hnot. apply list_find_lower_None in Hnot. congruence.
  - rewrite bool_decide_eq_true_2; [done|].
    by apply list_find_lower_None.
Qed.
End accessor.

(** ** Properties of the equivalence predicate *)

Section equivalence.
Implicit Types (a b c : comp) (n name : string) (names : list string).

Lemma elem_of_hmt_names c n :
  n ∈ hmt_names c ↔ n ∈ toLower <$> getFieldNames c ∧ n ∈ hmtFieldNames.
Proof.
  unfold hmt_names.
  by rewrite elem_of_intersection, !elem_of_list_to_set.
Qed.

Lemma has_hmt_field_true c :
  has_hmt_field c = true ↔ ∃ n, n ∈ hmt_names c.
Proof.
  unfold has_hmt_field. rewrite existsb_exists. split.
  - intros (n & Hin & Hn). apply bool_decide_eq_true in Hn.
    exists (toLower n). apply elem_of_hmt_names. split; [|done].
    apply list_elem_of_fmap. exists n. split; [done|].
    by apply list_elem_of_In.
  - intros (n & Hn). apply elem_of_hmt_names in Hn as [Hin Hhmt].
    apply list_elem_of_fmap in Hin as (o & -> & Hin).
    exists o. split; [by apply list_elem_of_In|].
    by apply bool_decide_eq_true.
Qed.

Lemma has_hmt_field_false c :
  has_hmt_field c = false ↔ hmt_names c = ∅.
Proof.
  split.
  - intros Hf. apply set_eq. intros n. rewrite elem_of_empty.
    split; [|done].
    intros Hn. assert (has_hmt_field c = true) as Ht
      by (apply has_hmt_field_true; eauto). congruence.
  - intros He. destruct (has_hmt_field c) eqn:Ht; [|done].
    apply has_hmt_field_true in Ht as [n Hn].
    rewrite He in Hn. by apply not_elem_of_empty in Hn.
Qed.

Lemma hmt_all_empty a b :
  size (hmt_names a ∪ hmt_names b) = 0 ↔
  has_hmt_field a = false ∧ has_hmt_field b = false.
Proof.
  rewrite size_empty_iff, leibniz_equiv_iff, empty_union_L.
  by rewrite !has_hmt_field_false.
Qed.

Lemma elem_of_hmt_union a b n :
  n ∈ hmt_union a b ↔ n ∈ hmt_names a ∪ hmt_names b.
Proof.
  unfold hmt_union.
  rewrite list_elem_of_filter, elem_of_union, !elem_of_hmt_names. tauto.
Qed.

Lemma forallb_same_elements (f : string -> bool) (l1 l2 : list string) :
  (∀ x, x ∈ l1 ↔ x ∈ l2) → forallb f l1 = forallb f l2.
Proof.
  intros H. apply eq_true_iff_eq. rewrite !forallb_forall.
  split; intros Hall x Hx; apply Hall, list_elem_of_In, H, list_elem_of_In, Hx.
Qed.

Lemma forallb_pointwise (f g : string -> bool) (l : list string) :
  (∀ x, f x = g x) → forallb f l = forallb g l.
Proof.
  intros H. induction l as [|x l IH]; simpl; [done|]. by rewrite H, IH.
Qed.

Lemma hmt_loop_forallb a b names (r : bool) :
  hmt_loop a b names r =
  Ok (r && forallb (λ n, bool_decide (getCaseInsensitiveField a n =
                                      getCaseInsensitiveField b n)) names).
Proof.
  revert r. induction names as [|n names IH]; intros r.
  - simpl. by rewrite andb_true_r.
  - cbn [hmt_loop forallb]. unfold hmt_step.
    rewrite !(getCaseInsensitiveField_find _ n). cbn [mbind res_bind].
    rewrite IH, <- andb_assoc. do 3 f_equal.
    apply bool_decide_ext. split; congruence.
Qed.

Lemma equByHMTFields_some a b :
  has_hmt_field a || has_hmt_field b = true →
  equByHMTFields a b =
  Ok (Some (forallb (λ n, bool_decide (getCaseInsensitiveField a n =
                                       getCaseInsensitiveField b n))
                    (hmt_union a b))).
Proof.
  intros Hhas. unfold equByHMTFields.
  destruct (decide _) as [Hz|Hnz].
  - apply hmt_all_empty in Hz as [Ha Hb]. rewrite Ha, Hb in Hhas. done.
  - rewrite hmt_loop_forallb. simpl. do 2 f_equal.
    apply forallb_same_elements. intros n.
    by rewrite elem_of_elements, elem_of_hmt_union.
Qed.

Lemma equByHMTFields_none a b :
  has_hmt_field a = false → has_hmt_field b = false →
  equByHMTFields a b = Ok None.
Proof.
  intros Ha Hb. unfold equByHMTFields.
  destruct (decide _) as [Hz|Hnz]; [done|].
  exfalso. apply Hnz, hmt_all_empty. done.
Qed.

Lemma equByHMTFields_comm a b : equByHMTFields a b = equByHMTFields b a.
Proof.
  unfold equByHMTFields.
  rewrite (union_comm_L (hmt_names a) (hmt_names b)).
  destruct (decide _); [done|].
  rewrite !hmt_loop_forallb. simpl. do 2 f_equal.
  apply forallb_pointwise. intros x. apply bool_decide_ext. split; congruence.
Qed.

(** What the fallback branch of [myEqu] returns. *)
Lemma myEqu_fallback a b :
  has_hmt_field a = false → has_hmt_field b = false →
  myEqu a b =
  Ok (if bool_decide (getValue a = getValue b ∧
                      getPartName a = getPartName b ∧
                      getFootprint a = getFootprint b)
      then None else Some false).
Proof.
  intros Ha Hb. unfold myEqu. rewrite equByHMTFields_none by done. simpl.
  repeat case_bool_decide; first [done | tauto | exfalso; tauto].
Qed.
End equivalence.

(** ** Properties of the exclusion filter *)

Section exclusion.
Implicit Types (c : comp) (components filtered : list comp).

Lemma filter_loop_filter components filtered :
  filter_loop components filtered =
  Ok (filtered ++
      filter (λ c, getCaseInsensitiveField c "exclude" = Ok None) components).
Proof.
  revert filtered.
  induction components as [|c components IH]; intros filtered.
  - simpl. by rewrite app_nil_r.
  - cbn [filter_loop]. rewrite filter_cons.
    rewrite (getCaseInsensitiveField_find c). cbn [mbind res_bind].
    destruct (list_find _ (getFieldNames c)) as [[i orig]|].
    + rewrite bool_decide_eq_false_2 by done.
      rewrite decide_False by congruence. apply IH.
    + rewrite bool_decide_eq_true_2 by done.
      rewrite decide_True by done. rewrite IH. by rewrite <- app_assoc.
Qed.

Lemma exclude_absent_iff c :
  getCaseInsensitiveField c "exclude" = Ok None ↔
  "exclude" ∉ toLower <$> getFieldNames c.
Proof.
  rewrite getCaseInsensitiveField_find.
  pose proof (list_find_lower_None "exclude" (getFieldNames c)) as Hnone.
  destruct (list_find _ _) as [[i orig]|].
  - split; [congruence|]. intros Habs. apply Hnone in Habs. congruence.
  - split; [|done]. intros _. by apply Hnone.
Qed.
End exclusion.

(** ** Properties of the row builder *)

Section rows.
Implicit Types (c : comp) (group : list comp) (refs : string).

Lemma string_length_pos_iff refs : 0 < String.length refs ↔ refs ≠ "".
Proof. destruct refs; simpl; split; first [lia | congruence | done]. Qed.

Lemma string_app_nil_l (s : string) : "" +:+ s = s.
Proof. reflexivity. Qed.

Lemma string_app_cons (ch : ascii) (s t : string) :
  String ch s +:+ t = String ch (s +:+ t).
Proof. reflexivity. Qed.

Lemma string_app_nonempty (s t : string) : s ≠ "" → s +:+ t ≠ "".
Proof. destruct s; [done|]. by rewrite string_app_cons. Qed.

Lemma string_app_assoc (s t u : string) : (s +:+ t) +:+ u = s +:+ (t +:+ u).
Proof.
  induction s as [|ch s IH]; [done|]. by rewrite !string_app_cons, IH.
Qed.

Lemma string_app_empty_r (s : string) : s +:+ "" = s.
Proof.
  induction s as [|ch s IH]; [done|]. by rewrite string_app_cons, IH.
Qed.

(** Once [refs] is not empty, every further designator is preceded by
    the separator. *)
Lemma refs_loop_nonempty group refs (last : option comp) :
  refs ≠ "" →
  (fold_left refs_step group (refs, last)).1 =
  refs +:+ String.concat "" ((λ c, ", " +:+ getRef c) <$> group).
Proof.
  revert refs last. induction group as [|c group IH]; intros refs last Hne.
  - simpl. by rewrite string_app_empty_r.
  - cbn [fold_left]. unfold refs_step at 2. cbn [fst].
    rewrite bool_decide_eq_true_2 by by apply string_length_pos_iff.
    rewrite IH by by do 2 apply string_app_nonempty.
    rewrite fmap_cons. rewrite !string_app_assoc. f_equal.
    destruct group; simpl; [by rewrite string_app_empty_r|].
    by rewrite !string_app_assoc.
Qed.

Lemma concat_separator (sep first : string) (others : list string) :
  String.concat sep (first :: others) =
  first +:+ String.concat "" ((λ s, sep +:+ s) <$> others).
Proof.
  revert first. induction others as [|s others IH]; intros first.
  - simpl. by rewrite string_app_empty_r.
  - change (String.concat sep (first :: s :: others))
      with (first +:+ sep +:+ String.concat sep (s :: others)).
    rewrite IH, fmap_cons. f_equal.
    destruct others; simpl; [by rewrite !string_app_empty_r|].
    by rewrite !string_app_assoc.
Qed.

Lemma group_refs_join c group :
  getRef c ≠ "" →
  group_refs (c :: group) = String.concat ", " (getRef <$> (c :: group)).
Proof.
  intros Hne. unfold group_refs. cbn [fold_left].
  unfold refs_step at 2. cbn [fst]. simpl String.length.
  rewrite bool_decide_eq_false_2 by (simpl; lia).
  rewrite refs_loop_nonempty by done.
  rewrite fmap_cons, concat_separator. f_equal.
  by rewrite <- list_fmap_compose.
Qed.
End rows.

(** ** Properties of the grouping pass *)

Section grouping.
Variable eq : comp -> comp -> res (option bool).
Hypothesis eq_returns : ∀ a b, ∃ v, eq a b = Ok v.

Lemma split_equal_perm (c : comp) (ungrouped : list comp) :
  ∃ p, split_equal eq c ungrouped = Ok p ∧ p.1 ++ p.2 ≡ₚ ungrouped.
Proof.
  induction ungrouped as [|ci rest (p & Hp & Hperm)].
  - by exists ([], []).
  - cbn [split_equal]. destruct (eq_returns ci c) as [v ->].
    rewrite Hp. cbn [mbind res_bind].
    destruct (truthy v); eexists; split; try reflexivity; cbn [fst snd].
    + by constructor.
    + rewrite <- Permutation_middle. by constructor.
Qed.

Lemma group_loop_perm (fuel : nat) (ungrouped : list comp) :
  length ungrouped ≤ fuel →
  ∃ groups, group_loop fuel eq ungrouped = Ok groups ∧
            concat groups ≡ₚ ungrouped ∧
            Forall (λ g, g ≠ []) groups.
Proof.
  revert ungrouped. induction fuel as [|fuel IH]; intros ungrouped Hlen.
  - destruct ungrouped; [|simpl in Hlen; lia]. by exists [].
  - destruct ungrouped as [|c rest]; [by exists []|].
    cbn [group_loop].
    destruct (split_equal_perm c rest) as (p & -> & Hperm).
    cbn [mbind res_bind].
    destruct (IH p.2) as (groups & -> & Hgroups & Hne).
    { apply Permutation_length in Hperm.
      rewrite length_app in Hperm. simpl in Hlen. lia. }
    eexists. split; [reflexivity|]. split.
    + cbn [concat]. rewrite Hgroups. simpl. by constructor.
    + by constructor.
Qed.

Lemma groupComponents_partition (components : list comp) :
  ∃ groups, groupComponents eq components = Ok groups ∧
            concat groups ≡ₚ components ∧
            Forall (λ g, g ≠ []) groups.
Proof. by apply group_loop_perm. Qed.
End grouping.

Lemma length_concat_sum {A : Type} (ls : list (list A)) :
  length (concat ls) = sum_list_with length ls.
Proof.
  induction ls as [|l ls IH]; simpl; [done|]. by rewrite length_app, IH.
Qed.

Lemma myEqu_returns (a b : comp) : ∃ v, myEqu a b = Ok v.
Proof.
  unfold myEqu.
  destruct (has_hmt_field a || has_hmt_field b) eqn:Hhas.
  - rewrite equByHMTFields_some by done. cbn [mbind res_bind].
    rewrite bool_decide_eq_true_2 by done. eauto.
  - apply orb_false_iff in Hhas as [Ha Hb].
    rewrite equByHMTFields_none by done. cbn [mbind res_bind].
    repeat case_bool_decide; eauto.
Qed.

(** ** Properties of the auxiliary BOM merger *)

Section aux.
Implicit Types (fieldnames record : list string) (name : string).
Implicit Types (d : gmap string (option string)).

Lemma dict_row_bindings fieldnames record d :
  fold_left (λ d key, <[key := None]> d) (drop (length record) fieldnames)
    (fold_left (λ d kv, <[kv.1 := Some kv.2]> d) (zip fieldnames record) d)
  = fold_left (λ d kv, <[kv.1 := kv.2]> d) (header_bindings fieldnames record) d.
Proof.
  revert record d.
  induction fieldnames as [|k fieldnames IH]; intros record d.
  - by rewrite drop_nil.
  - destruct record as [|x record].
    + cbn [zip_with length drop header_bindings fold_left head tail fst snd].
      specialize (IH [] (<[k:=None]> d)).
      rewrite zip_with_nil_r in IH. apply IH.
    + cbn [zip_with length drop header_bindings fold_left head tail fst snd].
      apply IH.
Qed.

Lemma bindings_lookup fieldnames record d name :
  fold_left (λ d kv, <[kv.1 := kv.2]> d) (header_bindings fieldnames record) d
    !! name
  = match header_cell fieldnames record name with
    | Some v => Some v
    | None => d !! name
    end.
Proof.
  revert record d.
  induction fieldnames as [|k fieldnames IH]; intros record d; [done|].
  cbn [header_bindings fold_left header_cell fst snd]. rewrite IH.
  destruct (header_cell fieldnames (tail record) name); [done|].
  rewrite lookup_insert. destruct (decide (k = name)); done.
Qed.

Lemma dict_row_lookup fieldnames record name :
  dict_row fieldnames record !! name = header_cell fieldnames record name.
Proof.
  unfold dict_row. rewrite dict_row_bindings, bindings_lookup.
  by destruct (header_cell _ _ _).
Qed.

Lemma header_cell_is_Some fieldnames record name :
  name ∈ fieldnames → is_Some (header_cell fieldnames record name).
Proof.
  revert record. induction fieldnames as [|k fieldnames IH]; intros record.
  - by intros ?%elem_of_nil.
  - intros Hin. cbn [header_cell].
    destruct (header_cell fieldnames (tail record) name) eqn:Hcell; [done|].
    apply elem_of_cons in Hin as [->|Hin].
    + by rewrite decide_True.
    + destruct (IH (tail record) Hin) as [v Hv]. congruence.
Qed.

Lemma project_cells fieldnames record (names : list string) :
  names ⊆ fieldnames →
  map_res (dict_getitem (dict_row fieldnames record)) names =
  Ok (column_cell fieldnames record <$> names).
Proof.
  induction names as [|name names IH]; intros Hsub; [done|].
  cbn [map_res]. rewrite IH by (intros x Hx; apply Hsub; by right).
  rewrite fmap_cons. unfold dict_getitem. rewrite dict_row_lookup.
  destruct (header_cell_is_Some fieldnames record name) as [v Hv].
  { apply Hsub. by left. }
  assert (column_cell fieldnames record name =
          match v with Some s => CStr s | None => CNone end) as ->
    by (unfold column_cell; by rewrite Hv).
  rewrite Hv. by destruct v.
Qed.

Lemma for_each_writerows {A : Type} (out : stream) (l : list A)
    (body : A -> io unit) (cells : A -> list string) :
  (∀ x, body x = ([WriteRow out (cells x)], Ok tt)) →
  for_each l body = ((λ x, WriteRow out (cells x)) <$> l, Ok tt).
Proof.
  intros Hbody. induction l as [|x l IH]; [done|].
  cbn [for_each]. rewrite Hbody, IH. reflexivity.
Qed.
End aux.

(** * The claims *)

(** X23: the result of the [for name in allFieldNames] loop does not
    depend on the order in which the set is visited. *)
Lemma hmt_loop_order_irrelevant (a b : comp) (names1 names2 : list string)
    (r : bool) :
  names1 ≡ₚ names2 → hmt_loop a b names1 r = hmt_loop a b names2 r.
Proof.
  intros Hperm. rewrite !hmt_loop_forallb. do 2 f_equal.
  apply forallb_same_elements. intros x. by rewrite Hperm.
Qed.

(** C1: two components without HMT fields and with the same value, part
    name and footprint: [myEqu] returns [None] and not [True]; the result
    is false as a truth value, and the grouping keeps the two apart. *)
Theorem myEqu_equal_triple_returns_None :
  has_hmt_field R1 = false ∧ has_hmt_field R2 = false ∧
  getValue R1 = getValue R2 ∧ getPartName R1 = getPartName R2 ∧
  getFootprint R1 = getFootprint R2 ∧
  myEqu R1 R2 = Ok None ∧
  myEqu R1 R2 ≠ Ok (Some true) ∧
  groupComponents myEqu [R1; R2] = Ok [[R1]; [R2]].
Proof. repeat split; try done. Qed.

(** C2: when a component of the pair carries an HMT field, [myEqu] returns
    the conjunction, over the HMT field names present on either side, of
    the equality of the two case-insensitive lookups; value, part name and
    footprint have no influence on the result. *)
Theorem myEqu_hmt_conjunction (a b : comp) :
  has_hmt_field a || has_hmt_field b = true →
  myEqu a b =
    Ok (Some (forallb (λ n, bool_decide (getCaseInsensitiveField a n =
                                         getCaseInsensitiveField b n))
                      (hmt_union a b))) ∧
  ∀ va pa fa vb pb fb,
    myEqu (with_identity a va pa fa) (with_identity b vb pb fb) = myEqu a b.
Proof.
  intros Hhas.
  assert (∀ a' b', has_hmt_field a' || has_hmt_field b' = true →
            myEqu a' b' =
            Ok (Some (forallb (λ n, bool_decide (getCaseInsensitiveField a' n =
                                                 getCaseInsensitiveField b' n))
                              (hmt_union a' b')))) as Hpath.
  { intros a' b' H'. unfold myEqu. rewrite equByHMTFields_some by done.
    cbn [mbind res_bind]. by rewrite bool_decide_eq_true_2. }
  split; [by apply Hpath|].
  intros va pa fa vb pb fb. rewrite (Hpath a b) by done.
  by rewrite Hpath.
Qed.

Lemma myEqu_hmt_conjunction_witness :
  has_hmt_field U1 || has_hmt_field U2 = true ∧
  myEqu U1 U2 = Ok (Some true) ∧
  myEqu (with_identity U1 "1k" "R" "0402") (with_identity U2 "2k" "R" "0805") =
  myEqu U1 U2.
Proof.
  split; [reflexivity|].
  destruct (myEqu_hmt_conjunction U1 U2 eq_refl) as [Hval Hid].
  split; [by rewrite Hval|apply Hid].
Defined.

(** C3: a pair that shares an HMT field with equal values, and has no HMT
    field, present on either side, with differing lookups (an absent field
    looks up as [None]), is equivalent, whatever the value, part name and
    footprint of the two components. *)
Theorem myEqu_hmt_equal_is_True (a b : comp) :
  Exists (λ n, n ∈ toLower <$> getFieldNames a ∧
               n ∈ toLower <$> getFieldNames b ∧
               getCaseInsensitiveField a n = getCaseInsensitiveField b n)
         hmtFieldNames →
  Forall (λ n, getCaseInsensitiveField a n = getCaseInsensitiveField b n)
         (hmt_union a b) →
  myEqu a b = Ok (Some true) ∧
  ∀ va pa fa vb pb fb,
    myEqu (with_identity a va pa fa) (with_identity b vb pb fb) = Ok (Some true).
Proof.
  intros Hshare Hall.
  assert (has_hmt_field a || has_hmt_field b = true) as Hhas.
  { apply Exists_exists in Hshare as (n & Hn & Ha & _).
    apply orb_true_iff. left. apply has_hmt_field_true.
    exists n. by apply elem_of_hmt_names. }
  assert (myEqu a b = Ok (Some true)) as Hab.
  { unfold myEqu. rewrite equByHMTFields_some by done.
    cbn [mbind res_bind]. rewrite bool_decide_eq_true_2 by done.
    do 2 f_equal. apply forallb_forall. intros n Hn.
    apply bool_decide_eq_true. rewrite Forall_forall in Hall.
    by apply Hall, list_elem_of_In. }
  split; [done|]. intros va pa fa vb pb fb. rewrite <- Hab.
  unfold myEqu. by rewrite !equByHMTFields_some.
Qed.

Lemma myEqu_hmt_equal_is_True_witness :
  getValue U1 ≠ getValue U2 ∧ getPartName U1 ≠ getPartName U2 ∧
  getFootprint U1 ≠ getFootprint U2 ∧ myEqu U1 U2 = Ok (Some true).
Proof.
  split; [done|]. split; [done|]. split; [done|].
  apply (myEqu_hmt_equal_is_True U1 U2).
  - apply (bool_decide_unpack _). vm_compute. exact I.
  - apply (bool_decide_unpack _). vm_compute. exact I.
Defined.

(** C4: the field accessor never raises; it returns the value of the first
    field whose lower-cased name is the lower-cased [name], and [None]
    exactly when no field name matches in that way. *)
Theorem getCaseInsensitiveField_lookup (c : comp) (name : string) :
  getCaseInsensitiveField c name =
    Ok (match list_find (λ n, toLower n = toLower name) (getFieldNames c) with
        | Some (_, orig) => Some (getField c orig)
        | None => None
        end) ∧
  (getCaseInsensitiveField c name = Ok None ↔
   toLower name ∉ toLower <$> getFieldNames c) ∧
  ∀ e, getCaseInsensitiveField c name ≠ Raise e.
Proof.
  rewrite getCaseInsensitiveField_find. split; [done|]. split; [|done].
  rewrite <- list_find_lower_None.
  destruct (list_find _ _) as [[i orig]|]; split; congruence.
Qed.

(** C5: the exclusion filter returns, in their original order, exactly the
    components whose lookup of ["exclude"] is [None]; a component that has
    an exclude field is dropped whatever the value of the field. *)
Theorem filteredComponents_keeps_unexcluded (components : list comp) :
  ∃ kept,
    filteredComponents components = Ok kept ∧
    kept = filter (λ c, getCaseInsensitiveField c "exclude" = Ok None) components ∧
    kept `sublist_of` components ∧
    ∀ c, c ∈ kept ↔ c ∈ components ∧ "exclude" ∉ toLower <$> getFieldNames c.
Proof.
  eexists. split; [apply filter_loop_filter|]. rewrite app_nil_l.
  split; [done|]. split; [apply sublist_filter|].
  intros c. rewrite list_elem_of_filter, exclude_absent_iff. tauto.
Qed.

(** A component with [exclude=""] is left out. *)
Example filteredComponents_empty_exclude :
  getCaseInsensitiveField TP1 "exclude" = Ok (Some "") ∧
  filteredComponents [R1; TP1; R2] = Ok [R1; R2].
Proof. split; reflexivity. Qed.

(** C6 as stated fails on a group that starts with an empty reference
    designator: the separator is written only once [refs] is not empty. *)
Lemma group_row_leading_empty_ref :
  [E0; R2] ≠ [] ∧
  group_row net0 [E0; R2] !! 1 = Some (CStr "R2") ∧
  String.concat ", " (getRef <$> [E0; R2]) = ", R2" ∧
  group_row net0 [E0; R2] !! 1 ≠
    Some (CStr (String.concat ", " (getRef <$> [E0; R2]))).
Proof. repeat split; done. Qed.

(** C6, amended: for a group whose first component has a reference
    designator that is not empty, the row builder writes one row; its
    first cell is the size of the group and its second cell the reference
    designators joined by [", "] in group order. *)
Theorem group_row_qty_refs (out : stream) (net : netlist) (c : comp)
    (group : list comp) :
  getRef c ≠ "" →
  writerow out (group_row net (c :: group)) =
    ([WriteRow out
        (pretty (Z.of_nat (length (c :: group)))
         :: String.concat ", " (getRef <$> c :: group)
         :: (getGroupField net (c :: group) <$> drop 2 columns))],
     Ok tt).
Proof.
  intros Hne. unfold writerow, group_row.
  by rewrite group_refs_join.
Qed.

Lemma group_row_qty_refs_witness :
  getRef R1 ≠ "" ∧
  writerow Stdout (group_row net0 [R1; R2]) =
    ([WriteRow Stdout ["2"; "R1, R2"; ""; ""; ""; ""; ""]], Ok tt).
Proof.
  split; [done|].
  by rewrite (group_row_qty_refs Stdout net0 R1 [R2]).
Defined.

(** C7 as stated fails on an auxiliary BOM that exists and holds no
    record: there are no field names, the subset test raises [TypeError],
    and the run prints no diagnostic about the columns. *)
Lemma aux_merge_empty_file_no_diagnostic :
  read_csv w_empty (auxBomFileName w_empty "bom.csv") = Some [] ∧
  aux_merge w_empty Stdout "bom.csv" =
    ([OpenRead "bom-aux.csv"; Print Stdout (AuxFound "bom-aux.csv")],
     Raise TypeError) ∧
  Print Stdout (AuxMustContain columns)
    ∉ (aux_merge w_empty Stdout "bom.csv").1.
Proof.
  split; [reflexivity|]. split; [reflexivity|].
  change (aux_merge w_empty Stdout "bom.csv").1
    with [OpenRead "bom-aux.csv"; Print Stdout (AuxFound "bom-aux.csv")].
  rewrite !not_elem_of_cons. split; [done|]. split; [done|].
  apply not_elem_of_nil.
Qed.

(** C7, amended: when the auxiliary BOM opens and holds a header record,
    either the column schema is not contained in the header, and the run
    prints the diagnostic and writes no row; or it is, and the run writes,
    for every non-empty record after the header and in file order, the
    cells the record has under the schema's column names, in schema
    order. *)
Theorem aux_merge_header (w : world) (out : stream) (output : string)
    (fieldnames : list string) (rest : list (list string)) :
  read_csv w (auxBomFileName w output) = Some (fieldnames :: rest) →
  aux_merge w out output =
    if bool_decide (columns ⊆ fieldnames)
    then ([OpenRead (auxBomFileName w output);
           Print Stdout (AuxFound (auxBomFileName w output))]
          ++ ((λ record,
                 WriteRow out (str <$> (column_cell fieldnames record <$> columns)))
              <$> data_rows rest),
          Ok tt)
    else ([OpenRead (auxBomFileName w output);
           Print Stdout (AuxFound (auxBomFileName w output));
           Print Stdout (AuxMustContain columns)],
          Ok tt).
Proof.
  intros Hread. unfold aux_merge. rewrite Hread.
  case_bool_decide as Hsub; cbn [negb].
  - rewrite (for_each_writerows out (data_rows rest) _
               (λ record, str <$> (column_cell fieldnames record <$> columns))).
    + reflexivity.
    + intros record. by rewrite project_cells.
  - reflexivity.
Qed.

Lemma aux_merge_header_witness :
  read_csv w0 (auxBomFileName w0 "bom.csv") =
    Some (aux_header ::
          [["hand"; "Acme"; "S-1"; ""; ""; "4"; "screws"; "M3 screw"];
           [];
           ["short"; "Acme"]]) ∧
  aux_merge w0 (File "bom.csv") "bom.csv" =
    ([OpenRead "bom-aux.csv"; Print Stdout (AuxFound "bom-aux.csv");
      WriteRow (File "bom.csv")
        ["4"; "screws"; "M3 screw"; "Acme"; "S-1"; ""; ""];
      WriteRow (File "bom.csv")
        ["None"; "None"; "None"; "Acme"; "None"; "None"; "None"]],
     Ok tt) ∧
  aux_merge w1 (File "bom.csv") "bom.csv" =
    ([OpenRead "bom-aux.csv"; Print Stdout (AuxFound "bom-aux.csv");
      Print Stdout (AuxMustContain columns)],
     Ok tt).
Proof.
  split; [reflexivity|]. split.
  - by rewrite (aux_merge_header w0 (File "bom.csv") "bom.csv" aux_header
                  [["hand"; "Acme"; "S-1"; ""; ""; "4"; "screws"; "M3 screw"];
                   []; ["short"; "Acme"]]).
  - by rewrite (aux_merge_header w1 (File "bom.csv") "bom.csv"
                  ["Reference(s)"; "description"] [["screws"; "M3"]]).
Defined.

(** C8: the grouping of the filtered components returns groups that
    together hold every filtered component exactly once, so that the sizes
    of the groups add up to the number of filtered components. *)
Theorem groupComponents_sizes (components : list comp) :
  ∃ kept grouped,
    filteredComponents components = Ok kept ∧
    groupComponents myEqu kept = Ok grouped ∧
    concat grouped ≡ₚ kept ∧
    sum_list_with length grouped = length kept.
Proof.
  exists (filter (λ c, getCaseInsensitiveField c "exclude" = Ok None) components).
  destruct (groupComponents_partition myEqu myEqu_returns
              (filter (λ c, getCaseInsensitiveField c "exclude" = Ok None)
                      components))
    as (grouped & Hrun & Hperm & _).
  exists grouped. split; [apply filter_loop_filter|]. split; [done|].
  split; [done|]. by rewrite <- length_concat_sum, Hperm.
Qed.

(** C9: with an argument vector of a length other than three, the script
    prints the usage message on standard error and exits with status 1;
    it does nothing else: no netlist is loaded, no file is opened and no
    row is written. *)
Theorem main_usage (w : world) (argv : list string) :
  length argv ≠ 3 →
  main w argv = ([Print Stderr Usage], Raise (SystemExit 1)) ∧
  exit_code (main w argv).2 = 1%Z.
Proof.
  intros Hlen. unfold main. by rewrite bool_decide_eq_true_2.
Qed.

Lemma main_usage_witness :
  length ["kicad_better_bom.py"; "board.xml"] ≠ 3 ∧
  main w0 ["kicad_better_bom.py"; "board.xml"] =
    ([Print Stderr Usage], Raise (SystemExit 1)).
Proof.
  split; [done|].
  apply (main_usage w0 ["kicad_better_bom.py"; "board.xml"]). done.
Defined.

(** C10: [myEqu] is symmetric. *)
Theorem myEqu_symmetric (a b : comp) : myEqu a b = myEqu b a.
Proof.
  unfold myEqu. rewrite (equByHMTFields_comm a b).
  destruct (equByHMTFields b a) as [[r|]|e]; [done| |done].
  cbn [mbind res_bind]. rewrite bool_decide_eq_false_2 by auto.
  repeat case_bool_decide; congruence.
Qed.

(** ** A complete run *)

(** The sample netlist holds two equal resistors without HMT fields, an
    excluded test point and two resistors of one manufacturer part; the
    auxiliary BOM has a full record, an empty one and a short one. *)
Example main_sample_run :
  main w0 ["kicad_better_bom.py"; "board.xml"; "bom.csv"] =
    ([LoadNetlist "board.xml"; OpenWrite "bom.csv";
      WriteRow (File "bom.csv") columns;
      WriteRow (File "bom.csv") ["1"; "R1"; ""; ""; ""; ""; ""];
      WriteRow (File "bom.csv") ["2"; "R3, R4"; ""; ""; ""; ""; ""];
      WriteRow (File "bom.csv") ["1"; "R2"; ""; ""; ""; ""; ""];
      OpenRead "bom-aux.csv"; Print Stdout (AuxFound "bom-aux.csv");
      WriteRow (File "bom.csv") ["4"; "screws"; "M3 screw"; "Acme"; "S-1"; ""; ""];
      WriteRow (File "bom.csv")
        ["None"; "None"; "None"; "Acme"; "None"; "None"; "None"];
      Close (File "bom.csv")],
     Ok tt).
Proof. vm_compute. reflexivity. Qed.

(** * Further properties *)

(** ** Field accessor and equivalence *)

Lemma lower_ascii_idempotent (ch : ascii) :
  lower_ascii (lower_ascii ch) = lower_ascii ch.
Proof. destruct ch as [[] [] [] [] [] [] [] []]; reflexivity. Qed.

(** X1: lower-casing is idempotent. *)
Theorem toLower_idempotent (s : string) : toLower (toLower s) = toLower s.
Proof.
  induction s as [|ch s IH]; [done|].
  cbn [toLower]. by rewrite lower_ascii_idempotent, IH.
Qed.

(** X2: the accessor does not tell apart two names that differ in case
    only. *)
Theorem getCaseInsensitiveField_case (c : comp) (n1 n2 : string) :
  toLower n1 = toLower n2 →
  getCaseInsensitiveField c n1 = getCaseInsensitiveField c n2.
Proof.
  intros Heq. unfold getCaseInsensitiveField. cbv zeta. by rewrite Heq.
Qed.

Lemma getCaseInsensitiveField_case_witness :
  toLower "MFG1PN" = toLower "Mfg1pn" ∧
  getCaseInsensitiveField U1 "MFG1PN" = getCaseInsensitiveField U1 "Mfg1pn".
Proof.
  split; [reflexivity|].
  apply (getCaseInsensitiveField_case U1 "MFG1PN" "Mfg1pn"). reflexivity.
Defined.

Lemma fmap_NoDup_agree (f : string -> string) (l : list string) (x y : string) :
  NoDup (f <$> l) → x ∈ l → y ∈ l → f x = f y → x = y.
Proof.
  induction l as [|z l IH]; [by intros _ ?%elem_of_nil|].
  rewrite fmap_cons, NoDup_cons. intros [Hz Hnd] Hx Hy Hf.
  apply elem_of_cons in Hx as [->|Hx]; apply elem_of_cons in Hy as [->|Hy].
  - done.
  - exfalso. apply Hz. rewrite Hf. by apply list_elem_of_fmap_2.
  - exfalso. apply Hz. rewrite <- Hf. by apply list_elem_of_fmap_2.
  - by apply IH.
Qed.

(** X3: when no two field names of a component agree up to case, a field
    is found under any spelling of its name, and the value returned is the
    one [getField] has for the name as the component spells it. *)
Theorem getCaseInsensitiveField_unique (c : comp) (name query : string) :
  NoDup (toLower <$> getFieldNames c) →
  name ∈ getFieldNames c →
  toLower query = toLower name →
  getCaseInsensitiveField c query = Ok (Some (getField c name)).
Proof.
  intros Hnd Hin Hq. rewrite getCaseInsensitiveField_find.
  destruct (list_find _ (getFieldNames c)) as [[i orig]|] eqn:Hfind.
  - apply list_find_Some in Hfind as (Hi & Horig & _).
    assert (orig = name) as ->; [|done].
    apply (fmap_NoDup_agree toLower (getFieldNames c)); [done| |done|congruence].
    by apply list_elem_of_lookup_2 in Hi.
  - apply list_find_None in Hfind. rewrite Forall_forall in Hfind.
    exfalso. by apply (Hfind name).
Qed.

Lemma getCaseInsensitiveField_unique_witness :
  getCaseInsensitiveField U2 "Mfg1Pn" = Ok (Some "RC0603FR-0710KL").
Proof.
  apply (getCaseInsensitiveField_unique U2 "MFG1PN" "Mfg1Pn").
  - apply (bool_decide_unpack _). vm_compute. exact I.
  - apply (bool_decide_unpack _). vm_compute. exact I.
  - reflexivity.
Defined.

(** X4: [equByHMTFields] returns [None] exactly when neither component
    carries an HMT field; when one of them does, it returns a boolean and
    does not raise. *)
Theorem equByHMTFields_None_iff (a b : comp) :
  (equByHMTFields a b = Ok None ↔
   has_hmt_field a = false ∧ has_hmt_field b = false) ∧
  (has_hmt_field a || has_hmt_field b = true →
   ∃ r : bool, equByHMTFields a b = Ok (Some r)).
Proof.
  split; [split|].
  - intros Hnone.
    destruct (has_hmt_field a || has_hmt_field b) eqn:Hhas.
    + rewrite equByHMTFields_some in Hnone by done. congruence.
    + by apply orb_false_iff.
  - intros [Ha Hb]. by apply equByHMTFields_none.
  - intros Hhas. rewrite equByHMTFields_some by done. eauto.
Qed.

Lemma hmt_name_lower (n : string) : n ∈ hmtFieldNames → toLower n = n.
Proof.
  unfold hmtFieldNames. rewrite !elem_of_cons, elem_of_nil.
  intros [->|[->|[->|[->|[->|[]]]]]]; reflexivity.
Qed.

Lemma lookup_absent (c : comp) (n : string) :
  n ∈ hmtFieldNames →
  (getCaseInsensitiveField c n = Ok None ↔ n ∉ toLower <$> getFieldNames c).
Proof.
  intros Hn. pose proof (hmt_name_lower n Hn) as Hlower.
  replace (n ∉ toLower <$> getFieldNames c)
    with (toLower n ∉ toLower <$> getFieldNames c) by (by rewrite Hlower).
  rewrite getCaseInsensitiveField_find, <- list_find_lower_None.
  destruct (list_find _ _) as [[i orig]|]; split; congruence.
Qed.

Lemma myEqu_hmt_path (a b : comp) :
  has_hmt_field a || has_hmt_field b = true →
  myEqu a b =
  Ok (Some (forallb (λ n, bool_decide (getCaseInsensitiveField a n =
                                       getCaseInsensitiveField b n))
                    (hmt_union a b))).
Proof.
  intros Hhas. unfold myEqu. rewrite equByHMTFields_some by done.
  cbn [mbind res_bind]. by rewrite bool_decide_eq_true_2.
Qed.

(** X5: a component compared with itself gives [True] when it carries an
    HMT field and [None] when it carries none. *)
Theorem myEqu_self (a : comp) :
  myEqu a a = Ok (if has_hmt_field a then Some true else None).
Proof.
  destruct (has_hmt_field a) eqn:Ha.
  - rewrite myEqu_hmt_path by by rewrite Ha.
    do 2 f_equal. apply forallb_forall. intros n _.
    by apply bool_decide_eq_true.
  - rewrite myEqu_fallback by done. by rewrite bool_decide_eq_true_2.
Qed.

(** X6: without an HMT field on either side the result is never [True]:
    it is [None] when value, part name and footprint are all equal, and
    [False] otherwise. *)
Theorem myEqu_without_hmt (a b : comp) :
  has_hmt_field a = false → has_hmt_field b = false →
  myEqu a b ≠ Ok (Some true) ∧
  (myEqu a b = Ok None ↔
   getValue a = getValue b ∧ getPartName a = getPartName b ∧
   getFootprint a = getFootprint b) ∧
  (myEqu a b = Ok (Some false) ↔
   ¬ (getValue a = getValue b ∧ getPartName a = getPartName b ∧
      getFootprint a = getFootprint b)).
Proof.
  intros Ha Hb. rewrite myEqu_fallback by done.
  case_bool_decide as Hsame; intuition congruence.
Qed.

Lemma myEqu_without_hmt_witness :
  myEqu R1 R2 ≠ Ok (Some true) ∧
  myEqu R1 (with_identity R2 "22k" "R" "0603") ≠ Ok (Some true).
Proof.
  split.
  - apply (myEqu_without_hmt R1 R2); reflexivity.
  - apply (myEqu_without_hmt R1 (with_identity R2 "22k" "R" "0603"));
      reflexivity.
Defined.

Lemma hmt_union_has_hmt (a b : comp) (n : string) :
  n ∈ hmt_union a b → has_hmt_field a || has_hmt_field b = true.
Proof.
  rewrite elem_of_hmt_union, elem_of_union, orb_true_iff.
  intros [Hn|Hn]; [left|right]; apply has_hmt_field_true; eauto.
Qed.

Lemma myEqu_hmt_differ (a b : comp) (n : string) :
  n ∈ hmt_union a b →
  getCaseInsensitiveField a n ≠ getCaseInsensitiveField b n →
  myEqu a b = Ok (Some false).
Proof.
  intros Hn Hdiff. rewrite myEqu_hmt_path by by eapply hmt_union_has_hmt.
  do 2 f_equal. apply not_true_is_false. rewrite forallb_forall.
  intros Hall. apply Hdiff. eapply bool_decide_eq_true.
  by apply Hall, list_elem_of_In.
Qed.

(** X7: an HMT field that one component has and the other lacks makes the
    two different, in either order, whatever else they share. *)
Theorem myEqu_absent_field (a b : comp) (n : string) :
  n ∈ hmtFieldNames →
  n ∈ toLower <$> getFieldNames a →
  n ∉ toLower <$> getFieldNames b →
  myEqu a b = Ok (Some false) ∧ myEqu b a = Ok (Some false).
Proof.
  intros Hn Ha Hb.
  assert (getCaseInsensitiveField a n ≠ getCaseInsensitiveField b n) as Hdiff.
  { apply (lookup_absent b n Hn) in Hb. rewrite Hb.
    intros Habs. by apply (lookup_absent a n Hn) in Habs. }
  split; apply (myEqu_hmt_differ _ _ n); try done.
  - apply elem_of_hmt_union, elem_of_union. left. by apply elem_of_hmt_names.
  - apply elem_of_hmt_union, elem_of_union. right. by apply elem_of_hmt_names.
Qed.

Lemma myEqu_absent_field_witness :
  myEqu U1 R1 = Ok (Some false) ∧ myEqu R1 U1 = Ok (Some false).
Proof.
  apply (myEqu_absent_field U1 R1 "mfg1").
  - apply (bool_decide_unpack _). vm_compute. exact I.
  - apply (bool_decide_unpack _). vm_compute. exact I.
  - apply (bool_decide_unpack _). vm_compute. exact I.
Defined.

Lemma myEqu_true_lookups (a b : comp) :
  myEqu a b = Ok (Some true) ↔
  has_hmt_field a = true ∧
  ∀ n, n ∈ hmtFieldNames →
       getCaseInsensitiveField a n = getCaseInsensitiveField b n.
Proof.
  split.
  - intros Htrue.
    assert (∀ n, n ∈ hmtFieldNames →
              getCaseInsensitiveField a n = getCaseInsensitiveField b n) as Hall.
    { intros n Hn.
      destruct (decide (getCaseInsensitiveField a n =
                        getCaseInsensitiveField b n)) as [|Hdiff]; [done|].
      destruct (decide (n ∈ hmt_union a b)) as [Hin|Hout].
      - rewrite (myEqu_hmt_differ a b n) in Htrue by done. congruence.
      - rewrite elem_of_hmt_union, elem_of_union, !elem_of_hmt_names in Hout.
        assert (n ∉ toLower <$> getFieldNames a) as Ha by tauto.
        assert (n ∉ toLower <$> getFieldNames b) as Hb by tauto.
        apply (lookup_absent a n Hn) in Ha.
        apply (lookup_absent b n Hn) in Hb. congruence. }
    split; [|done].
    destruct (has_hmt_field a) eqn:Ha; [done|].
    destruct (has_hmt_field b) eqn:Hb.
    + apply has_hmt_field_true in Hb as [n Hn].
      apply elem_of_hmt_names in Hn as [Hnb Hn].
      assert (has_hmt_field a = true) as Ha'; [|congruence].
      apply has_hmt_field_true. exists n. apply elem_of_hmt_names.
      split; [|done].
      destruct (decide (n ∈ toLower <$> getFieldNames a)) as [|Hna]; [done|].
      apply (lookup_absent a n Hn) in Hna. rewrite (Hall n Hn) in Hna.
      by apply (lookup_absent b n Hn) in Hna.
    + rewrite myEqu_fallback in Htrue by done.
      by case_bool_decide.
  - intros [Ha Hall]. rewrite myEqu_hmt_path by by rewrite Ha.
    do 2 f_equal. apply forallb_forall. intros n Hn.
    apply bool_decide_eq_true, Hall.
    apply list_elem_of_In, elem_of_hmt_union in Hn.
    apply elem_of_union in Hn as [Hn|Hn];
      by apply elem_of_hmt_names in Hn as [_ Hn].
Qed.

(** X8: the result is [True] exactly when the first component carries an
    HMT field and the two components have the same lookup for each of the
    five HMT field names. *)
Theorem myEqu_True_iff (a b : comp) :
  myEqu a b = Ok (Some true) ↔
  has_hmt_field a = true ∧
  Forall (λ n, getCaseInsensitiveField a n = getCaseInsensitiveField b n)
         hmtFieldNames.
Proof. rewrite myEqu_true_lookups, Forall_forall. done. Qed.

(** X9: on the results that are [True], [myEqu] is transitive. *)
Theorem myEqu_transitive (a b c : comp) :
  myEqu a b = Ok (Some true) → myEqu b c = Ok (Some true) →
  myEqu a c = Ok (Some true).
Proof.
  rewrite !myEqu_true_lookups. intros [Ha Hab] [_ Hbc].
  split; [done|]. intros n Hn. by rewrite Hab, Hbc.
Qed.

Lemma myEqu_transitive_witness :
  myEqu U1 (with_identity U1 "1k" "R" "0402") = Ok (Some true).
Proof.
  apply (myEqu_transitive U1 U2 (with_identity U1 "1k" "R" "0402"));
    reflexivity.
Defined.

Lemma hmt_loop_order_irrelevant_witness :
  hmt_loop U1 U2 ["mfg1"; "mfg1pn"; "description"] true =
  hmt_loop U1 U2 ["description"; "mfg1pn"; "mfg1"] true.
Proof.
  apply (hmt_loop_order_irrelevant U1 U2).
  apply (bool_decide_unpack _). vm_compute. exact I.
Defined.

(** ** Exclusion filter *)

Lemma filter_idempotent {A : Type} (P : A -> Prop) `{!∀ x, Decision (P x)}
    (l : list A) :
  filter P (filter P l) = filter P l.
Proof.
  induction l as [|x l IH]; [done|].
  rewrite filter_cons. destruct (decide (P x)); [|done].
  by rewrite filter_cons_True, IH.
Qed.

(** X10: filtering what the filter kept changes nothing. *)
Theorem filteredComponents_idempotent (components kept : list comp) :
  filteredComponents components = Ok kept →
  filteredComponents kept = Ok kept.
Proof.
  unfold filteredComponents. rewrite !filter_loop_filter, !app_nil_l.
  intros [= <-]. by rewrite filter_idempotent.
Qed.

Lemma filteredComponents_idempotent_witness :
  filteredComponents [R1; R2] = Ok [R1; R2].
Proof.
  apply (filteredComponents_idempotent [R1; TP1; R2] [R1; R2]). reflexivity.
Defined.

(** X11: the filter works component by component: what it keeps of two
    lists put end to end is what it keeps of the first followed by what it
    keeps of the second. *)
Theorem filteredComponents_app (l1 l2 k1 k2 : list comp) :
  filteredComponents l1 = Ok k1 → filteredComponents l2 = Ok k2 →
  filteredComponents (l1 ++ l2) = Ok (k1 ++ k2).
Proof.
  unfold filteredComponents. rewrite !filter_loop_filter, !app_nil_l.
  intros [= <-] [= <-]. by rewrite filter_app.
Qed.

Lemma filteredComponents_app_witness :
  filteredComponents ([R1; TP1] ++ [TP1; R2]) = Ok ([R1] ++ [R2]).
Proof.
  apply (filteredComponents_app [R1; TP1] [TP1; R2] [R1] [R2]); reflexivity.
Defined.

(** ** Row builder *)

Lemma refs_loop_last (group : list comp) (refs : string)
    (last1 last2 : option comp) :
  (fold_left refs_step group (refs, last1)).1 =
  (fold_left refs_step group (refs, last2)).1.
Proof. by destruct group. Qed.

(** X12: the references cell is the join by [", "] of the designators of
    the group from the first non-empty one on; empty designators at the
    start of a group leave no trace. *)
Theorem group_refs_drop_empty (group : list comp) :
  group_refs group = String.concat ", " (drop_empty (getRef <$> group)).
Proof.
  induction group as [|c group IH]; [done|].
  rewrite fmap_cons. cbn [drop_empty].
  destruct (decide (getRef c = "")) as [Hempty|Hne].
  - rewrite <- IH. unfold group_refs. cbn [fold_left].
    unfold refs_step at 2. cbn [fst]. rewrite Hempty.
    apply refs_loop_last.
  - rewrite <- fmap_cons. by apply group_refs_join.
Qed.

(** ** Auxiliary BOM *)

Lemma aux_merge_cases (w : world) (out : stream) (output : string) :
  aux_merge w out output =
  match read_csv w (auxBomFileName w output) with
  | None =>
      ([OpenRead (auxBomFileName w output);
        Print Stdout (NoAuxFound (auxBomFileName w output))], Ok tt)
  | Some [] =>
      ([OpenRead (auxBomFileName w output);
        Print Stdout (AuxFound (auxBomFileName w output))], Raise TypeError)
  | Some (fieldnames :: rest) =>
      if bool_decide (columns ⊆ fieldnames)
      then ([OpenRead (auxBomFileName w output);
             Print Stdout (AuxFound (auxBomFileName w output))]
            ++ ((λ record,
                   WriteRow out
                     (str <$> (column_cell fieldnames record <$> columns)))
                <$> data_rows rest),
            Ok tt)
      else ([OpenRead (auxBomFileName w output);
             Print Stdout (AuxFound (auxBomFileName w output));
             Print Stdout (AuxMustContain columns)],
            Ok tt)
  end.
Proof.
  unfold aux_merge.
  destruct (read_csv w (auxBomFileName w output)) as [[|fieldnames rest]|];
    [reflexivity| |reflexivity].
  case_bool_decide as Hsub; cbn [negb]; [|reflexivity].
  rewrite (for_each_writerows out (data_rows rest) _
             (λ record, str <$> (column_cell fieldnames record <$> columns))).
  - reflexivity.
  - intros record. by rewrite project_cells.
Qed.

(** X13: when the auxiliary BOM cannot be opened, the merger reports it on
    standard output, writes no row and does not fail. *)
Theorem aux_merge_missing (w : world) (out : stream) (output : string) :
  read_csv w (auxBomFileName w output) = None →
  aux_merge w out output =
    ([OpenRead (auxBomFileName w output);
      Print Stdout (NoAuxFound (auxBomFileName w output))], Ok tt).
Proof. intros Hread. by rewrite aux_merge_cases, Hread. Qed.

Lemma aux_merge_missing_witness :
  aux_merge w_noaux Stdout "bom.csv" =
    ([OpenRead "bom-aux.csv"; Print Stdout (NoAuxFound "bom-aux.csv")], Ok tt).
Proof. apply (aux_merge_missing w_noaux Stdout "bom.csv"). reflexivity. Defined.

(** X14: an auxiliary BOM without any record has no field names; the
    subset test then raises [TypeError], which the handler for [IOError]
    does not catch. *)
Theorem aux_merge_no_header (w : world) (out : stream) (output : string) :
  read_csv w (auxBomFileName w output) = Some [] →
  aux_merge w out output =
    ([OpenRead (auxBomFileName w output);
      Print Stdout (AuxFound (auxBomFileName w output))], Raise TypeError).
Proof. intros Hread. by rewrite aux_merge_cases, Hread. Qed.

Lemma aux_merge_no_header_witness :
  aux_merge w_empty Stdout "bom.csv" =
    ([OpenRead "bom-aux.csv"; Print Stdout (AuxFound "bom-aux.csv")],
     Raise TypeError).
Proof. apply (aux_merge_no_header w_empty Stdout "bom.csv"). reflexivity. Defined.

Lemma header_cell_absent (fieldnames record : list string) (name : string) :
  name ∉ fieldnames → header_cell fieldnames record name = None.
Proof.
  revert record. induction fieldnames as [|k fieldnames IH]; intros record;
    [done|].
  rewrite not_elem_of_cons. intros [Hne Hnotin]. cbn [header_cell].
  rewrite IH by done. by rewrite decide_False.
Qed.

Lemma header_cell_position (fieldnames record : list string) (name : string)
    (i : nat) :
  NoDup fieldnames → fieldnames !! i = Some name →
  header_cell fieldnames record name = Some (record !! i).
Proof.
  revert record i.
  induction fieldnames as [|k fieldnames IH]; intros record i; [done|].
  rewrite NoDup_cons. intros [Hk Hnd] Hi. cbn [header_cell].
  destruct i as [|i].
  - injection Hi as ->. rewrite header_cell_absent by done.
    rewrite decide_True by done. by destruct record.
  - rewrite (IH (tail record) i) by done. by destruct record.
Qed.

(** X15: under a header without repeated names, the cell read for a column
    name is the cell of the record at the position of the name in the
    header, and [None] when the record is too short to have one. *)
Theorem dict_row_position (fieldnames record : list string) (name : string)
    (i : nat) :
  NoDup fieldnames → fieldnames !! i = Some name →
  dict_getitem (dict_row fieldnames record) name =
    Ok (match record !! i with Some s => CStr s | None => CNone end).
Proof.
  intros Hnd Hi. unfold dict_getitem.
  rewrite dict_row_lookup, (header_cell_position _ _ _ i) by done.
  by destruct (record !! i).
Qed.

Lemma dict_row_position_witness :
  dict_getitem (dict_row aux_header ["short"; "Acme"]) "mfg1" = Ok (CStr "Acme") ∧
  dict_getitem (dict_row aux_header ["short"; "Acme"]) "Qty" = Ok CNone.
Proof.
  split.
  - apply (dict_row_position aux_header ["short"; "Acme"] "mfg1" 1);
      [|reflexivity].
    apply (bool_decide_unpack _). vm_compute. exact I.
  - apply (dict_row_position aux_header ["short"; "Acme"] "Qty" 5);
      [|reflexivity].
    apply (bool_decide_unpack _). vm_compute. exact I.
Defined.

Lemma project_full_record (record : list string) :
  length record = length columns →
  str <$> (column_cell columns record <$> columns) = record.
Proof.
  intros Hlen.
  do 7 (destruct record as [|? record]; [done|]).
  by destruct record.
Qed.

Lemma data_rows_full (rest : list (list string)) :
  Forall (λ record, length record = length columns) rest →
  data_rows rest = rest.
Proof.
  unfold data_rows. induction 1 as [|record rest Hlen _ IH]; [done|].
  rewrite filter_cons_True; [by rewrite IH|]. by destruct record.
Qed.

Lemma project_full_records (out : stream) (rest : list (list string)) :
  Forall (λ record, length record = length columns) rest →
  (λ record, WriteRow out (str <$> (column_cell columns record <$> columns)))
    <$> rest
  = WriteRow out <$> rest.
Proof.
  induction 1 as [|record rest Hlen _ IH]; [done|].
  rewrite !fmap_cons, IH. by rewrite project_full_record.
Qed.

(** X16: an auxiliary BOM whose header is the column schema itself, and
    whose records all have one cell per column, is appended record for
    record, unchanged. *)
Theorem aux_merge_same_schema (w : world) (out : stream) (output : string)
    (rest : list (list string)) :
  read_csv w (auxBomFileName w output) = Some (columns :: rest) →
  Forall (λ record, length record = length columns) rest →
  aux_merge w out output =
    ([OpenRead (auxBomFileName w output);
      Print Stdout (AuxFound (auxBomFileName w output))]
     ++ (WriteRow out <$> rest),
     Ok tt).
Proof.
  intros Hread Hfull. rewrite aux_merge_cases, Hread.
  rewrite bool_decide_eq_true_2 by done.
  by rewrite data_rows_full, project_full_records.
Qed.

Lemma aux_merge_same_schema_witness :
  aux_merge w_same (File "bom.csv") "bom.csv" =
    ([OpenRead "bom-aux.csv"; Print Stdout (AuxFound "bom-aux.csv");
      WriteRow (File "bom.csv")
        ["2"; "J1, J2"; "jumper, 2.54mm"; "Acme"; "J-2"; ""; ""];
      WriteRow (File "bom.csv") ["1"; "H1"; "heat sink"; ""; ""; ""; ""]],
     Ok tt).
Proof.
  apply (aux_merge_same_schema w_same (File "bom.csv") "bom.csv"
           [["2"; "J1, J2"; "jumper, 2.54mm"; "Acme"; "J-2"; ""; ""];
            ["1"; "H1"; "heat sink"; ""; ""; ""; ""]]).
  - reflexivity.
  - repeat constructor.
Defined.

(** ** The script as a whole *)

Lemma io_bind_pair {A B : Type} (t : list event) (a : A) (k : A -> io B) :
  ((t, Ok a) : io A) ≫= k = (t ++ (k a).1, (k a).2).
Proof. reflexivity. Qed.

Lemma io_bind_raise {A B : Type} (t : list event) (e : exn) (k : A -> io B) :
  ((t, Raise e) : io A) ≫= k = (t, Raise e).
Proof. reflexivity. Qed.

Lemma io_bind_lift {A B : Type} (a : A) (k : A -> io B) :
  lift (Ok a) ≫= k = k a.
Proof. unfold lift. rewrite io_bind_pair. by destruct (k a). Qed.

Lemma io_bind_emit {B : Type} (e : event) (k : unit -> io B) :
  emit e ≫= k = (e :: (k tt).1, (k tt).2).
Proof. reflexivity. Qed.

Lemma main_rows (w : world) (net : netlist) (f : stream) (output : string)
    (grouped : list (list comp)) :
  groupComponents myEqu
    (filter (λ c, getCaseInsensitiveField c "exclude" = Ok None)
            (getInterestingComponents net)) = Ok grouped →
  (components ← lift (filteredComponents (getInterestingComponents net));
   _ ← writerow f (CStr <$> columns);
   grouped ← lift (groupComponents myEqu components);
   _ ← for_each grouped (λ group, writerow f (group_row net group));
   _ ← aux_merge w f output;
   emit (Close f)) =
  (WriteRow f columns
   :: ((λ group, WriteRow f (str <$> group_row net group)) <$> grouped)
   ++ (aux_merge w f output).1
   ++ match (aux_merge w f output).2 with
      | Ok _ => [Close f]
      | Raise _ => []
      end,
   (aux_merge w f output).2).
Proof.
  intros Hgroup. unfold filteredComponents.
  rewrite filter_loop_filter, app_nil_l, io_bind_lift. cbn beta.
  change (writerow f (CStr <$> columns)) with (emit (WriteRow f columns)).
  rewrite io_bind_emit. cbn beta.
  rewrite Hgroup, io_bind_lift. cbn beta.
  rewrite (for_each_writerows f grouped _
             (λ group, str <$> group_row net group)) by done.
  rewrite io_bind_pair. cbn beta.
  destruct (aux_merge w f output) as [t [[]|e]].
  - rewrite io_bind_pair. reflexivity.
  - rewrite io_bind_raise. cbn [fst snd]. by rewrite app_nil_r.
Qed.

Lemma main_trace (w : world) (script input output : string) (net : netlist)
    (grouped : list (list comp)) :
  load_netlist w input = Ok net →
  groupComponents myEqu
    (filter (λ c, getCaseInsensitiveField c "exclude" = Ok None)
            (getInterestingComponents net)) = Ok grouped →
  main w [script; input; output] =
    (LoadNetlist input :: OpenWrite output
     :: (if open_write w output then []
         else [Print Stderr (CantOpenOutput output)])
     ++ WriteRow (out_stream w output) columns
     :: ((λ group, WriteRow (out_stream w output) (str <$> group_row net group))
         <$> grouped)
     ++ (aux_merge w (out_stream w output) output).1
     ++ match (aux_merge w (out_stream w output) output).2 with
        | Ok _ => [Close (out_stream w output)]
        | Raise _ => []
        end,
     (aux_merge w (out_stream w output) output).2).
Proof.
  intros Hload Hgroup. unfold main, out_stream.
  rewrite bool_decide_eq_false_2 by (simpl; lia).
  change (list_getitem [script; input; output] 1) with (Ok input).
  change (list_getitem [script; input; output] 2) with (Ok output).
  rewrite io_bind_lift. cbn beta. rewrite io_bind_emit. cbn beta.
  rewrite Hload, io_bind_lift. cbn beta. rewrite io_bind_lift. cbn beta.
  destruct (open_write w output).
  - change (try_IOError _ _)
      with (([OpenWrite output], Ok (File output)) : io stream).
    rewrite io_bind_pair, (main_rows w net _ output grouped) by done.
    reflexivity.
  - change (try_IOError _ _)
      with (([OpenWrite output; Print Stderr (CantOpenOutput output)],
             Ok Stdout) : io stream).
    rewrite io_bind_pair, (main_rows w net _ output grouped) by done.
    reflexivity.
Qed.

Lemma main_grouped (net : netlist) :
  ∃ grouped,
    groupComponents myEqu
      (filter (λ c, getCaseInsensitiveField c "exclude" = Ok None)
              (getInterestingComponents net)) = Ok grouped.
Proof.
  destruct (groupComponents_partition myEqu myEqu_returns
              (filter (λ c, getCaseInsensitiveField c "exclude" = Ok None)
                      (getInterestingComponents net)))
    as (grouped & Hrun & _).
  by exists grouped.
Qed.

Lemma main_load_raise (w : world) (script input output : string) (e : exn) :
  load_netlist w input = Raise e →
  main w [script; input; output] = ([LoadNetlist input], Raise e).
Proof.
  intros Hload. unfold main.
  rewrite bool_decide_eq_false_2 by (simpl; lia).
  change (list_getitem [script; input; output] 1) with (Ok input).
  rewrite io_bind_lift. cbn beta. rewrite io_bind_emit. cbn beta.
  by rewrite Hload.
Qed.

(** X17: when the netlist cannot be loaded the exception ends the run
    before the output file is opened and before any row is written. *)
Theorem main_load_failure (w : world) (script input output : string)
    (e : exn) :
  load_netlist w input = Raise e →
  main w [script; input; output] = ([LoadNetlist input], Raise e) ∧
  filter is_row (main w [script; input; output]).1 = [] ∧
  OpenWrite output ∉ (main w [script; input; output]).1.
Proof.
  intros Hload. rewrite (main_load_raise w script input output e) by done.
  split; [done|]. split; [done|].
  cbn [fst]. rewrite list_elem_of_singleton. done.
Qed.

Lemma main_load_failure_witness :
  main w_noload ["kicad_better_bom.py"; "board.xml"; "bom.csv"] =
    ([LoadNetlist "board.xml"], Raise IOError).
Proof.
  apply (main_load_failure w_noload "kicad_better_bom.py" "board.xml"
           "bom.csv" IOError).
  reflexivity.
Defined.

(** X18: without an auxiliary BOM the script writes the header and one row
    for each group the grouping pass returns, reports the missing file,
    closes the output and ends with status 0. *)
Theorem main_aux_missing (w : world) (script input output : string)
    (net : netlist) :
  load_netlist w input = Ok net →
  read_csv w (auxBomFileName w output) = None →
  ∃ grouped,
    groupComponents myEqu
      (filter (λ c, getCaseInsensitiveField c "exclude" = Ok None)
              (getInterestingComponents net)) = Ok grouped ∧
    main w [script; input; output] =
      (LoadNetlist input :: OpenWrite output
       :: (if open_write w output then []
           else [Print Stderr (CantOpenOutput output)])
       ++ WriteRow (out_stream w output) columns
       :: ((λ group,
              WriteRow (out_stream w output) (str <$> group_row net group))
           <$> grouped)
       ++ [OpenRead (auxBomFileName w output);
           Print Stdout (NoAuxFound (auxBomFileName w output));
           Close (out_stream w output)],
       Ok tt) ∧
    exit_code (main w [script; input; output]).2 = 0%Z.
Proof.
  intros Hload Hread. destruct (main_grouped net) as [grouped Hgroup].
  exists grouped. split; [done|].
  rewrite (main_trace w script input output net grouped) by done.
  rewrite aux_merge_cases, Hread. done.
Qed.

Lemma main_aux_missing_witness :
  ∃ grouped,
    groupComponents myEqu
      (filter (λ c, getCaseInsensitiveField c "exclude" = Ok None)
              (getInterestingComponents net0)) = Ok grouped ∧
    main w_noaux ["kicad_better_bom.py"; "board.xml"; "bom.csv"] =
      ([LoadNetlist "board.xml"; OpenWrite "bom.csv";
        WriteRow (File "bom.csv") columns]
       ++ ((λ group, WriteRow (File "bom.csv") (str <$> group_row net0 group))
           <$> grouped)
       ++ [OpenRead "bom-aux.csv"; Print Stdout (NoAuxFound "bom-aux.csv");
           Close (File "bom.csv")],
       Ok tt).
Proof.
  destruct (main_aux_missing w_noaux "kicad_better_bom.py" "board.xml"
              "bom.csv" net0 eq_refl eq_refl)
    as (grouped & Hgroup & Hmain & _).
  exists grouped. split; [exact Hgroup|exact Hmain].
Defined.

Lemma aux_merge_rows (w : world) (out : stream) (output : string) :
  Forall (row_to out (length columns)) (aux_merge w out output).1.
Proof.
  rewrite aux_merge_cases.
  destruct (read_csv w (auxBomFileName w output)) as [[|fieldnames rest]|].
  - by repeat constructor.
  - case_bool_decide; [|by repeat constructor].
    cbn [fst]. do 2 (apply Forall_cons; split; [done|]).
    apply Forall_fmap, Forall_true. intros record.
    split; [done|]. by rewrite !length_fmap.
  - by repeat constructor.
Qed.

(** X19: every row of a run goes to one stream, the output file or, when
    the file did not open, standard output, and has one cell for each of
    the seven columns: the header, the rows of the groups and the rows
    taken from the auxiliary BOM alike. *)
Theorem main_rows_rectangular (w : world) (script input output : string) :
  Forall (row_to (out_stream w output) (length columns))
         (main w [script; input; output]).1.
Proof.
  destruct (load_netlist w input) as [net|e] eqn:Hload.
  - destruct (main_grouped net) as [grouped Hgroup].
    rewrite (main_trace w script input output net grouped) by done.
    cbn [fst]. do 2 (apply Forall_cons; split; [done|]).
    apply Forall_app. split; [by destruct (open_write w output); repeat constructor|].
    apply Forall_cons. split; [done|].
    apply Forall_app. split; [by apply Forall_fmap, Forall_true|].
    apply Forall_app. split; [apply aux_merge_rows|].
    by destruct (aux_merge _ _ _).2; repeat constructor.
  - rewrite (main_load_raise w script input output e) by done.
    by repeat constructor.
Qed.

(** X20: after the netlist is loaded the first row written is the header,
    on the stream the rows go to; when the output file does not open, the
    failure is reported on standard error before it. *)
Theorem main_header_first (w : world) (script input output : string)
    (net : netlist) :
  load_netlist w input = Ok net →
  ∃ rest,
    (main w [script; input; output]).1 =
      LoadNetlist input :: OpenWrite output
      :: (if open_write w output then []
          else [Print Stderr (CantOpenOutput output)])
      ++ WriteRow (out_stream w output) columns :: rest.
Proof.
  intros Hload. destruct (main_grouped net) as [grouped Hgroup].
  rewrite (main_trace w script input output net grouped) by done.
  by eexists.
Qed.

Lemma main_header_first_witness :
  ∃ rest,
    (main w_empty ["kicad_better_bom.py"; "board.xml"; "bom.csv"]).1 =
      [LoadNetlist "board.xml"; OpenWrite "bom.csv";
       Print Stderr (CantOpenOutput "bom.csv"); WriteRow Stdout columns]
      ++ rest.
Proof.
  destruct (main_header_first w_empty "kicad_better_bom.py" "board.xml"
              "bom.csv" net0 eq_refl) as [rest Hrest].
  exists rest. exact Hrest.
Defined.

(** X21: an auxiliary BOM without any record ends the run with the
    [TypeError] of the merger: the exit status is 1 and the output stream
    is not closed by the script. *)
Theorem main_aux_no_header (w : world) (script input output : string)
    (net : netlist) :
  load_netlist w input = Ok net →
  read_csv w (auxBomFileName w output) = Some [] →
  (main w [script; input; output]).2 = Raise TypeError ∧
  exit_code (main w [script; input; output]).2 = 1%Z ∧
  Close (out_stream w output) ∉ (main w [script; input; output]).1.
Proof.
  intros Hload Hread. destruct (main_grouped net) as [grouped Hgroup].
  rewrite (main_trace w script input output net grouped) by done.
  rewrite aux_merge_cases, Hread. cbn [fst snd].
  split; [done|]. split; [done|].
  rewrite !not_elem_of_cons, not_elem_of_app, not_elem_of_cons, not_elem_of_app.
  split; [done|]. split; [done|]. split.
  { destruct (open_write w output); [apply not_elem_of_nil|].
    rewrite list_elem_of_singleton. done. }
  split; [done|]. split.
  { rewrite list_elem_of_fmap. by intros (g & ? & _). }
  rewrite app_nil_r, !not_elem_of_cons. split; [done|]. split; [done|].
  apply not_elem_of_nil.
Qed.

Lemma main_aux_no_header_witness :
  (main w_empty ["kicad_better_bom.py"; "board.xml"; "bom.csv"]).2 =
    Raise TypeError.
Proof.
  apply (main_aux_no_header w_empty "kicad_better_bom.py" "board.xml"
           "bom.csv" net0); reflexivity.
Defined.

(** X22: when the netlist loads and the auxiliary BOM is missing or has a
    header record, the run ends normally, with status 0, and its last
    action is to close the stream the rows went to. *)
Theorem main_closes_output (w : world) (script input output : string)
    (net : netlist) :
  load_netlist w input = Ok net →
  read_csv w (auxBomFileName w output) ≠ Some [] →
  (main w [script; input; output]).2 = Ok tt ∧
  exit_code (main w [script; input; output]).2 = 0%Z ∧
  last (main w [script; input; output]).1 = Some (Close (out_stream w output)).
Proof.
  intros Hload Hread. destruct (main_grouped net) as [grouped Hgroup].
  rewrite (main_trace w script input output net grouped) by done.
  assert ((aux_merge w (out_stream w output) output).2 = Ok tt) as Haux.
  { rewrite aux_merge_cases.
    destruct (read_csv w (auxBomFileName w output)) as [[|fieldnames rest]|];
      [done| |done].
    by case_bool_decide. }
  rewrite Haux. cbn [fst snd]. split; [done|]. split; [done|].
  rewrite !app_comm_cons, !app_assoc. apply last_snoc.
Qed.

Lemma main_closes_output_witness :
  last (main w0 ["kicad_better_bom.py"; "board.xml"; "bom.csv"]).1 =
    Some (Close (File "bom.csv")).
Proof.
  apply (main_closes_output w0 "kicad_better_bom.py" "board.xml" "bom.csv"
           net0); [reflexivity|].
  intros Habs. discriminate Habs.
Defined.
